(** * OR-Set CRDT (crdt.h): a shallow embedding and its properties

    The C++ class [ORSet] keeps a replica id, a 64-bit counter, an ordered
    set of (element, tag) pairs and an unordered set of elements used as a
    membership cache.  Both containers are modelled as finite sets ([gset]):
    [std::set] orders its keys with [operator<], and two keys are the same
    key exactly when neither is below the other, which for the lexicographic
    order on (string, (string, uint64)) is structural equality. *)

From stdpp Require Import gmap strings list sets.
From Stdlib Require Import NArith Lia DecimalString DecimalNat.

Local Open Scope N_scope.

(** ** Tags *)

(** [struct Tag { string replica_id; uint64_t counter; }] *)
Record Tag : Type := mkTag {
  tag_replica_id : string;
  tag_counter : N
}.

Global Instance Tag_eq_dec : EqDecision Tag.
Proof. solve_decision. Defined.

Global Instance Tag_countable : Countable Tag.
Proof.
  refine (inj_countable' (λ t, (tag_replica_id t, tag_counter t))
                         (λ p, mkTag p.1 p.2) _).
  by intros [].
Defined.

(** [Tag::operator==] *)
Definition Tag_eqb (a b : Tag) : bool :=
  bool_decide (tag_replica_id a = tag_replica_id b)
  && bool_decide (tag_counter a = tag_counter b).

(** ** Replica state *)

(** Range of [uint64_t]; [local_counter++] wraps around at this modulus. *)
Definition UINT64_MOD : N := 2 ^ 64.

Definition wrap64 (n : N) : N := n mod UINT64_MOD.

Record ORSet : Type := mkORSet {
  replica_id : string;
  local_counter : N;
  internal_set : gset (string * Tag);
  element_cache : gset string
}.

(** [ORSet(const string& id) : replica_id(id), local_counter(0) {}] *)
Definition ORSet_new (id : string) : ORSet :=
  {| replica_id := id; local_counter := 0;
     internal_set := ∅; element_cache := ∅ |}.

(** The tag built by the next [add]: [local_counter++] and then
    [Tag tag{replica_id, local_counter}]. *)
Definition next_tag (s : ORSet) : Tag :=
  mkTag (replica_id s) (wrap64 (local_counter s + 1)).

(** [ORSet::add] *)
Definition add (element : string) (s : ORSet) : ORSet :=
  let tag := next_tag s in
  {| replica_id := replica_id s;
     local_counter := tag_counter tag;
     internal_set := {[ (element, tag) ]} ∪ internal_set s;
     element_cache := {[ element ]} ∪ element_cache s |}.

(** First loop of [ORSet::remove]: the tags seen for [element]. *)
Definition tags_to_remove (element : string) (st : gset (string * Tag)) : gset Tag :=
  set_fold (λ pair acc, if decide (pair.1 = element) then {[ pair.2 ]} ∪ acc else acc)
           ∅ st.

(** Second loop of [ORSet::remove]: erase [(element, tag)] for each seen tag. *)
Definition erase_tags (element : string) (tags : gset Tag)
    (st : gset (string * Tag)) : gset (string * Tag) :=
  set_fold (λ tag acc, acc ∖ {[ (element, tag) ]}) st tags.

(** Third loop of [ORSet::remove]: is some pair for [element] left?  The
    [break] only cuts the scan short; the flag is a disjunction. *)
Definition still_exists (element : string) (st : gset (string * Tag)) : bool :=
  set_fold (λ pair found, found || bool_decide (pair.1 = element)) false st.

(** [ORSet::remove] *)
Definition remove (element : string) (s : ORSet) : ORSet :=
  let tags := tags_to_remove element (internal_set s) in
  let internal_set' := erase_tags element tags (internal_set s) in
  {| replica_id := replica_id s;
     local_counter := local_counter s;
     internal_set := internal_set';
     element_cache :=
       if still_exists element internal_set'
       then element_cache s
       else element_cache s ∖ {[ element ]} |}.

(** [unordered_set::count]: 0 or 1. *)
Definition cache_count (element : string) (c : gset string) : nat :=
  if decide (element ∈ c) then 1%nat else 0%nat.

(** [ORSet::contains] *)
Definition contains (element : string) (s : ORSet) : bool :=
  Nat.ltb 0 (cache_count element (element_cache s)).

(** [ORSet::elements]: a [set<string>] built from the cache. *)
Definition elements_of (s : ORSet) : gset string :=
  list_to_set (elements (element_cache s)).

(** [ORSet::merge] *)
Definition merge (other : ORSet) (s : ORSet) : ORSet :=
  {| replica_id := replica_id s;
     local_counter := local_counter s;
     internal_set := internal_set s ∪ internal_set other;
     element_cache := element_cache s ∪ element_cache other |}.

(** [ORSet::size], [ORSet::internal_size], [ORSet::get_counter] *)
Definition ORSet_size (s : ORSet) : nat := size (element_cache s).
Definition internal_size (s : ORSet) : nat := size (internal_set s).
Definition get_counter (s : ORSet) : N := local_counter s.

(** ** The order on tags *)

(** [Tag::operator<]: [tie(replica_id, counter) < tie(other.replica_id,
    other.counter)], the lexicographic order. *)
Definition Tag_ltb (a b : Tag) : bool :=
  match String.compare (tag_replica_id a) (tag_replica_id b) with
  | Lt => true
  | Eq => tag_counter a <? tag_counter b
  | Gt => false
  end.

(** ** Cache consistency (I1) *)

(** The cache as it would be recomputed from the entry store. *)
Definition recomputed_cache (st : gset (string * Tag)) : gset string :=
  set_map fst st.

Definition I1 (s : ORSet) : Prop :=
  element_cache s = recomputed_cache (internal_set s).

Global Instance I1_dec s : Decision (I1 s).
Proof. unfold I1. solve_decision. Defined.

(** ** Histories of one replica *)

(** The public methods of the class.  [Merge] carries the snapshot of the
    other replica that the caller passes in. *)
Inductive op : Type :=
  | Add (element : string)
  | Remove (element : string)
  | Contains (element : string)
  | Elements
  | Merge (other : ORSet)
  | Size
  | InternalSize
  | GetCounter.

Inductive ret : Type :=
  | RVoid
  | RBool (b : bool)
  | RElements (es : gset string)
  | RSize (n : nat)
  | RCounter (c : N).

(** A call yields the replica after the call and the value returned.  The
    [const] methods hand the replica back as it was. *)
Definition call (o : op) (s : ORSet) : ORSet * ret :=
  match o with
  | Add element => (add element s, RVoid)
  | Remove element => (remove element s, RVoid)
  | Contains element => (s, RBool (contains element s))
  | Elements => (s, RElements (elements_of s))
  | Merge other => (merge other s, RVoid)
  | Size => (s, RSize (ORSet_size s))
  | InternalSize => (s, RSize (internal_size s))
  | GetCounter => (s, RCounter (get_counter s))
  end.

Definition apply_op (o : op) (s : ORSet) : ORSet := (call o s).1.

(** Run a history, oldest call first. *)
Fixpoint run_ops (ops : list op) (s : ORSet) : ORSet :=
  match ops with
  | [] => s
  | o :: ops' => run_ops ops' (apply_op o s)
  end.

(** The snapshots handed to [merge] are internally consistent. *)
Definition snapshot_ok (o : op) : Prop :=
  match o with
  | Merge other => I1 other
  | _ => True
  end.

Fixpoint count_adds (ops : list op) : nat :=
  match ops with
  | [] => 0%nat
  | Add _ :: ops' => S (count_adds ops')
  | _ :: ops' => count_adds ops'
  end.

(** ** A system of replicas *)

(** The replicas of a deployment, addressed by position, and the calls a
    driver makes on them: [EvMerge i j] is [replica_i.merge(replica_j)]. *)
Inductive event : Type :=
  | EvAdd (i : nat) (element : string)
  | EvRemove (i : nat) (element : string)
  | EvMerge (i j : nat).

Definition init_system (ids : list string) : list ORSet := ORSet_new <$> ids.

(** An event that names a replica that does not exist changes nothing. *)
Definition step (ev : event) (sys : list ORSet) : list ORSet :=
  match ev with
  | EvAdd i element => alter (add element) i sys
  | EvRemove i element => alter (remove element) i sys
  | EvMerge i j =>
      match sys !! j with
      | Some other => alter (merge other) i sys
      | None => sys
      end
  end.

(** The tagged entry created by an event, if it is an [add]. *)
Definition issued (ev : event) (sys : list ORSet) : list (string * Tag) :=
  match ev with
  | EvAdd i element =>
      match sys !! i with
      | Some r => [(element, next_tag r)]
      | None => []
      end
  | _ => []
  end.

Fixpoint run_events (trace : list event) (sys : list ORSet) : list ORSet :=
  match trace with
  | [] => sys
  | ev :: trace' => run_events trace' (step ev sys)
  end.

(** Every entry created along a trace, in the order of the [add] calls. *)
Fixpoint issued_log (trace : list event) (sys : list ORSet) : list (string * Tag) :=
  match trace with
  | [] => []
  | ev :: trace' => issued ev sys ++ issued_log trace' (step ev sys)
  end.

(** Number of [add] calls on replica [i]. *)
Fixpoint adds_at (i : nat) (trace : list event) : nat :=
  match trace with
  | [] => 0%nat
  | EvAdd j _ :: trace' =>
      if decide (i = j) then S (adds_at i trace') else adds_at i trace'
  | _ :: trace' => adds_at i trace'
  end.

(** No two [add] calls produced the same tag. *)
Definition tags_unique (log : list (string * Tag)) : Prop := NoDup (log.*2).

(** No store holds two entries that share a tag. *)
Definition store_tags_unique (r : ORSet) : Prop :=
  ∀ e1 e2 t, (e1, t) ∈ internal_set r → (e2, t) ∈ internal_set r → e1 = e2.

(** ** The invariant behind the uniqueness of tags *)

(** What holds of a system after the calls [past] and of the entries
    created by them: the replica ids are pairwise distinct, the created
    tags are pairwise distinct, the counter of a replica is the number of
    its add calls modulo 2^64, each created tag belongs to one of the add
    calls of the replica it names, and every stored entry was created by
    some [add]. *)
Record sys_inv (past : list event) (sys : list ORSet)
    (log : list (string * Tag)) : Prop := SysInv {
  inv_ids : NoDup (replica_id <$> sys);
  inv_log : tags_unique log;
  inv_counter : ∀ i r, sys !! i = Some r →
    local_counter r = wrap64 (N.of_nat (adds_at i past));
  inv_owner : ∀ p, p ∈ log →
    ∃ i r j, sys !! i = Some r ∧ replica_id r = tag_replica_id p.2
             ∧ (1 ≤ j ≤ adds_at i past)%nat
             ∧ tag_counter p.2 = wrap64 (N.of_nat j);
  inv_store : ∀ i r p, sys !! i = Some r → p ∈ internal_set r → p ∈ log
}.

(** ** The two-replica walkthrough of [main] *)

Module Walkthrough.
Definition A0 : ORSet := ORSet_new "A".
Definition B0 : ORSet := ORSet_new "B".
(* A.add("apple"); B.add("apple"); *)
Definition A1 : ORSet := add "apple" A0.
Definition B1 : ORSet := add "apple" B0.
(* A.merge(B); B.merge(A); *)
Definition A2 : ORSet := merge B1 A1.
Definition B2 : ORSet := merge A2 B1.
(* A.remove("apple"); B.add("apple"); *)
Definition A3 : ORSet := remove "apple" A2.
Definition B3 : ORSet := add "apple" B2.
(* B.merge(A); A.merge(B); *)
Definition B4 : ORSet := merge A3 B3.
Definition A4 : ORSet := merge B4 A3.
End Walkthrough.

(** ** Long histories in a small store *)




(** ** The order on stored entries *)

(** [pair<string, Tag>::operator<], the order of [internal_set]:
    [a.first < b.first || (!(b.first < a.first) && a.second < b.second)]. *)
Definition entry_ltb (a b : string * Tag) : bool :=
  String.ltb a.1 b.1 || (negb (String.ltb b.1 a.1) && Tag_ltb a.2 b.2).

(** ** Loops over several elements *)

(** [for (e : es) set.add(e);] *)
Definition add_all (es : list string) (s : ORSet) : ORSet :=
  foldl (λ acc e, add e acc) s es.

(** [for (e : es) set.remove(e);] *)
Definition remove_all (es : list string) (s : ORSet) : ORSet :=
  foldl (λ acc e, remove e acc) s es.

(** ** The test suite (crdt_benchmark.cpp) *)

(** [class TestRunner]: two [int] counters.  What [assert_true] prints
    is left out; the suite makes 17 assertions, far from the range of
    [int]. *)
Record TestRunner : Type := mkTestRunner {
  passed : Z;
  failed : Z
}.

Definition TestRunner_new : TestRunner := {| passed := 0; failed := 0 |}.

(** [TestRunner::assert_true] *)
Definition assert_true (condition : bool) (test_name : string)
    (runner : TestRunner) : TestRunner :=
  if condition
  then {| passed := (passed runner + 1)%Z; failed := failed runner |}
  else {| passed := passed runner; failed := (failed runner + 1)%Z |}.

(** The total printed by [TestRunner::print_summary]. *)
Definition summary_total (runner : TestRunner) : Z :=
  (passed runner + failed runner)%Z.

(** [test_basic_operations] *)
Definition test_basic_operations (runner : TestRunner) : TestRunner :=
  let set0 := ORSet_new "test" in
  let set1 := add "apple" set0 in
  let runner := assert_true (contains "apple" set1) "Add single element" runner in
  let runner := assert_true (Nat.eqb (ORSet_size set1) 1) "Size after add" runner in
  let set2 := add "cherry" (add "banana" set1) in
  let runner := assert_true (Nat.eqb (ORSet_size set2) 3) "Multiple adds" runner in
  let set3 := remove "banana" set2 in
  let runner := assert_true (negb (contains "banana" set3)) "Remove element" runner in
  let runner := assert_true (Nat.eqb (ORSet_size set3) 2) "Size after remove" runner in
  let runner := assert_true (contains "apple" set3) "Contains existing" runner in
  assert_true (negb (contains "xyz" set3)) "Contains non-existing" runner.

(** [test_concurrent_operations] *)
Definition test_concurrent_operations (runner : TestRunner) : TestRunner :=
  let A := add "apple" (ORSet_new "A") in
  let B := add "apple" (ORSet_new "B") in
  let A := merge B A in
  let B := merge A B in
  let runner := assert_true (contains "apple" A) "Concurrent add - A" runner in
  let runner := assert_true (contains "apple" B) "Concurrent add - B" runner in
  let runner := assert_true (Nat.eqb (ORSet_size A) 1) "No duplicates after merge" runner in
  let A := remove "apple" A in
  let B := add "apple" B in
  let A := merge B A in
  let B := merge A B in
  let runner := assert_true (contains "apple" A) "Add-wins semantics - A" runner in
  assert_true (contains "apple" B) "Add-wins semantics - B" runner.

(** [test_merge_idempotency] *)
Definition test_merge_idempotency (runner : TestRunner) : TestRunner :=
  let A := add "x" (ORSet_new "A") in
  let B := add "y" (ORSet_new "B") in
  let A := merge B A in
  let size_after_first := ORSet_size A in
  let A := merge B A in
  let size_after_second := ORSet_size A in
  let runner :=
    assert_true (Nat.eqb size_after_first size_after_second) "Merge is idempotent" runner in
  let C := add "a" (ORSet_new "C") in
  let D := add "b" (ORSet_new "D") in
  let C_copy := C in
  let C := merge D C in
  let D := merge C_copy D in
  assert_true (Nat.eqb (ORSet_size C) (ORSet_size D)) "Merge is commutative" runner.

(** The six merges that end [test_complex_scenario]:
    [A.merge(C); B.merge(C); C.merge(A); C.merge(B); A.merge(C);
    B.merge(A);] *)
Definition full_sync (ABC : ORSet * ORSet * ORSet) : ORSet * ORSet * ORSet :=
  let '(A, B, C) := ABC in
  let A := merge C A in
  let B := merge C B in
  let C := merge A C in
  let C := merge B C in
  let A := merge C A in
  let B := merge A B in
  (A, B, C).

(** The replicas of [test_complex_scenario] before and after the full
    sync. *)
Definition complex_before_sync : ORSet * ORSet * ORSet :=
  let A := add "item2" (add "item1" (ORSet_new "A")) in
  let B := add "item3" (add "item2" (ORSet_new "B")) in
  let C := add "item3" (add "item1" (ORSet_new "C")) in
  let A := merge B A in
  let B := merge A B in
  let A := remove "item2" A in
  let C := add "item4" C in
  (A, B, C).

Definition complex_after_sync : ORSet * ORSet * ORSet :=
  full_sync complex_before_sync.

(** [test_complex_scenario] *)
Definition test_complex_scenario (runner : TestRunner) : TestRunner :=
  let '(A, B, C) := complex_after_sync in
  let runner :=
    assert_true (Nat.eqb (ORSet_size A) (ORSet_size B)
                 && Nat.eqb (ORSet_size B) (ORSet_size C))
                "All replicas converged" runner in
  let runner := assert_true (negb (contains "item2" A)) "Removed item absent" runner in
  assert_true (contains "item4" A) "New item present" runner.

(** The tests as [main] of the suite runs them. *)
Definition run_tests : TestRunner :=
  test_complex_scenario
    (test_merge_idempotency
       (test_concurrent_operations
          (test_basic_operations TestRunner_new))).

(** ** The benchmark loops (crdt_benchmark.cpp) *)

(** [std::to_string] on the values of the loop counter, which are never
    negative: the decimal digits. *)
Definition to_string (i : nat) : string :=
  NilEmpty.string_of_uint (Nat.to_uint i).

(** ["element_" + to_string(i)] *)
Definition element_name (i : nat) : string := "element_" +:+ to_string i.

(** [for (int i = 0; i < n; i++) set.add("element_" + to_string(i + offset));]
    with [offset] 0, or [n/2] for the second replica of the merge
    benchmark. *)
Definition populate (offset n : nat) (s : ORSet) : ORSet :=
  foldl (λ acc i, add (element_name (i + offset)) acc) s (seq 0 n).

(** [for (int i = 0; i < n; i++) set.remove("element_" + to_string(i));] *)
Definition depopulate (n : nat) (s : ORSet) : ORSet :=
  foldl (λ acc i, remove (element_name i) acc) s (seq 0 n).

(** Largest [int]. *)
Definition INT_MAX : N := 2 ^ 31 - 1.

(** [estimated_memory] of [benchmark_memory_usage], in [size_t]
    arithmetic: [(internal_pairs * 50) + (cached_elements * 30)]. *)
Definition estimated_memory (s : ORSet) : N :=
  wrap64 (wrap64 (N.of_nat (internal_size s) * 50)
          + wrap64 (N.of_nat (ORSet_size s) * 30)).

(** ** Methods that only grow or only shrink the store *)

(** Every method but [remove]. *)
Definition never_erases (o : op) : bool :=
  match o with
  | Remove _ => false
  | _ => true
  end.

(** Every method but [add] and [merge]. *)
Definition never_inserts (o : op) : bool :=
  match o with
  | Add _ | Merge _ => false
  | _ => true
  end.

(** ** The three loops of [remove] *)

Section remove_loops.
Implicit Types (element : string) (st : gset (string * Tag)) (tags : gset Tag).

Lemma elem_of_tags_to_remove element st t :
  t ∈ tags_to_remove element st ↔ (element, t) ∈ st.
Proof.
  unfold tags_to_remove.
  apply (set_fold_ind_L (λ acc X, t ∈ acc ↔ (element, t) ∈ X)).
  - set_solver.
  - intros [e' t'] X acc Hfresh IH; simpl.
    case_decide as He; subst; set_solver.
Qed.

Lemma elem_of_erase_tags element tags st p :
  p ∈ erase_tags element tags st ↔ p ∈ st ∧ ¬ (p.1 = element ∧ p.2 ∈ tags).
Proof.
  unfold erase_tags.
  apply (set_fold_ind_L
           (λ acc T, p ∈ acc ↔ p ∈ st ∧ ¬ (p.1 = element ∧ p.2 ∈ T))).
  - set_solver.
  - intros t T acc Hfresh IH. destruct p as [e' t']; simpl in *.
    rewrite elem_of_difference, IH, elem_of_singleton, elem_of_union,
      elem_of_singleton.
    split.
    + intros [[Hin Hno] Hne]. split; [done|].
      intros [-> [->|Ht]]; [by apply Hne | by apply Hno].
    + intros [Hin Hno]. split; [split; [done|] |].
      * intros [-> Ht]. apply Hno. auto.
      * intros [= -> ->]. apply Hno. auto.
Qed.

Lemma still_exists_true element st :
  still_exists element st = true ↔ ∃ t, (element, t) ∈ st.
Proof.
  unfold still_exists.
  apply (set_fold_ind_L (λ found X, found = true ↔ ∃ t, (element, t) ∈ X)).
  - split; [done | intros [t Ht]; set_solver].
  - intros [e' t'] X found Hfresh IH; simpl.
    rewrite orb_true_iff, IH, bool_decide_eq_true.
    split.
    + intros [[t Ht] | ->]; [exists t | exists t']; set_solver.
    + intros [t Ht]. apply elem_of_union in Ht as [Ht | Ht].
      * apply elem_of_singleton in Ht. right. congruence.
      * left. eauto.
Qed.

Lemma still_exists_false element st :
  still_exists element st = false ↔ ∀ t, (element, t) ∉ st.
Proof.
  rewrite <- not_true_iff_false, still_exists_true. naive_solver.
Qed.

(** What the first two loops leave in the store. *)
Lemma elem_of_internal_set_remove element s p :
  p ∈ internal_set (remove element s) ↔ p ∈ internal_set s ∧ p.1 ≠ element.
Proof.
  simpl. rewrite elem_of_erase_tags. destruct p as [e' t']; simpl.
  rewrite elem_of_tags_to_remove.
  split.
  - intros [Hin Hno]. split; [done|]. intros ->. by apply Hno.
  - intros [Hin Hne]. split; [done|]. intros [? _]. by apply Hne.
Qed.

Lemma remove_no_entry element s t :
  (element, t) ∉ internal_set (remove element s).
Proof. rewrite elem_of_internal_set_remove. simpl. naive_solver. Qed.

(** After the erasure the third loop never finds the element. *)
Lemma still_exists_after_erase element st :
  still_exists element
    (erase_tags element (tags_to_remove element st) st) = false.
Proof.
  apply still_exists_false. intros t.
  rewrite elem_of_erase_tags, elem_of_tags_to_remove. simpl. naive_solver.
Qed.

Lemma element_cache_remove element s :
  element_cache (remove element s) = element_cache s ∖ {[ element ]}.
Proof. simpl. by rewrite still_exists_after_erase. Qed.
End remove_loops.

(** ** Queries *)

Lemma contains_true element s :
contains element s = true ↔ element ∈ element_cache s.
Proof.
unfold contains, cache_count. case_decide; simpl; naive_solver.
Qed.

Lemma contains_false element s :
contains element s = false ↔ element ∉ element_cache s.
Proof. rewrite <- not_true_iff_false, contains_true. done. Qed.

Lemma elements_of_cache s : elements_of s = element_cache s.
Proof. unfold elements_of. apply list_to_set_elements_L. Qed.

(** ** Cache consistency is kept by every method *)

Lemma elem_of_recomputed_cache (e : string) (st : gset (string * Tag)) :
  e ∈ recomputed_cache st ↔ ∃ t, (e, t) ∈ st.
Proof.
  unfold recomputed_cache. rewrite elem_of_map. split.
  - intros [[e' t] [-> Hin]]. by exists t.
  - intros [t Hin]. by exists (e, t).
Qed.

Lemma I1_spec s :
  I1 s ↔ ∀ e, e ∈ element_cache s ↔ ∃ t, (e, t) ∈ internal_set s.
Proof.
  unfold I1. split.
  - intros -> e. apply elem_of_recomputed_cache.
  - intros H. apply set_eq. intros e. by rewrite H, elem_of_recomputed_cache.
Qed.

Lemma I1_new id : I1 (ORSet_new id).
Proof. apply I1_spec. intros e. simpl. set_solver. Qed.

Lemma I1_add element s : I1 s → I1 (add element s).
Proof.
  rewrite !I1_spec. intros H e. simpl.
  rewrite elem_of_union, elem_of_singleton, H. split.
  - intros [-> | [t Ht]].
    + eexists. apply elem_of_union_l. by apply elem_of_singleton.
    + exists t. set_solver.
  - intros [t Ht]. apply elem_of_union in Ht as [Ht | Ht]; [|eauto].
    apply elem_of_singleton in Ht. left. congruence.
Qed.

Lemma I1_remove element s : I1 s → I1 (remove element s).
Proof.
  rewrite !I1_spec. intros H e.
  rewrite element_cache_remove, elem_of_difference, elem_of_singleton, H.
  split.
  - intros [[t Ht] Hne]. exists t. by apply elem_of_internal_set_remove.
  - intros [t Ht]. apply elem_of_internal_set_remove in Ht as [Ht Hne]. eauto.
Qed.

Lemma I1_merge other s : I1 other → I1 s → I1 (merge other s).
Proof.
  rewrite !I1_spec. intros Ho Hs e. simpl.
  rewrite elem_of_union, Hs, Ho. split.
  - intros [[t Ht] | [t Ht]]; exists t; set_solver.
  - intros [t Ht]. apply elem_of_union in Ht as [Ht | Ht]; eauto.
Qed.

(** ** Facts about histories *)


Lemma I1_apply_op o s : snapshot_ok o → I1 s → I1 (apply_op o s).
Proof.
  destruct o; simpl; intros Hok Hs; try done.
  - by apply I1_add.
  - by apply I1_remove.
  - by apply I1_merge.
Qed.

Lemma replica_id_apply_op o s : replica_id (apply_op o s) = replica_id s.
Proof. by destruct o. Qed.

Lemma replica_id_run_ops ops s : replica_id (run_ops ops s) = replica_id s.
Proof.
  revert s. induction ops as [|o ops IH]; intros s; simpl; [done|].
  by rewrite IH, replica_id_apply_op.
Qed.

(** ** The counter *)

Lemma wrap64_small n : n < UINT64_MOD → wrap64 n = n.
Proof. apply N.mod_small. Qed.








(** ** Rounds of add and remove *)










(** ** Uniqueness of tags within the range of the counter *)

Section tag_uniqueness.
Implicit Types (sys : list ORSet) (log : list (string * Tag)).

Lemma lookup_same_replica_id sys i j r1 r2 :
  NoDup (replica_id <$> sys) →
  sys !! i = Some r1 → sys !! j = Some r2 →
  replica_id r1 = replica_id r2 → i = j.
Proof.
  intros Hnd H1 H2 Hid.
  eapply NoDup_lookup; [exact Hnd | |].
  - rewrite list_lookup_fmap, H1. reflexivity.
  - rewrite list_lookup_fmap, H2. simpl. by rewrite Hid.
Qed.

Lemma fmap_replica_id_alter f i sys :
  (∀ r, replica_id (f r) = replica_id r) →
  replica_id <$> alter f i sys = replica_id <$> sys.
Proof.
  intros Hf. apply list_eq. intros j. rewrite !list_lookup_fmap.
  destruct (decide (i = j)) as [->|Hne].
  - rewrite list_lookup_alter_eq. destruct (sys !! j); simpl; [|done].
    by rewrite Hf.
  - by rewrite list_lookup_alter_ne.
Qed.

Lemma lookup_alter_inv f i sys j r' :
  alter f i sys !! j = Some r' →
  (i = j ∧ ∃ r, sys !! i = Some r ∧ r' = f r) ∨ (i ≠ j ∧ sys !! j = Some r').
Proof.
  destruct (decide (i = j)) as [->|Hne].
  - rewrite list_lookup_alter_eq. destruct (sys !! j) as [r|]; simpl; [|done].
    intros [= <-]. left. eauto.
  - rewrite list_lookup_alter_ne by done. auto.
Qed.

Lemma adds_at_app i (trace1 trace2 : list event) :
  adds_at i (trace1 ++ trace2) = (adds_at i trace1 + adds_at i trace2)%nat.
Proof.
  induction trace1 as [|[k e | k e | k j] trace1 IH]; simpl; [done| |done|done].
  case_decide; lia.
Qed.

(** Below 2^64 the counter values are the numbers themselves, and 2^64
    is the first number that meets an earlier one (none but 0). *)
Lemma wrap64_ne_in_range (a b : nat) :
  (1 ≤ a < b)%nat → N.of_nat b ≤ UINT64_MOD →
  wrap64 (N.of_nat a) ≠ wrap64 (N.of_nat b).
Proof.
  intros Hab Hb. rewrite (wrap64_small (N.of_nat a)) by lia.
  destruct (decide (N.of_nat b < UINT64_MOD)) as [Hlt|Hge].
  - rewrite (wrap64_small (N.of_nat b)) by done. lia.
  - assert (N.of_nat b = UINT64_MOD) as -> by lia.
    unfold wrap64. rewrite N.Div0.mod_same. lia.
Qed.

Lemma wrap64_succ (n : nat) :
  wrap64 (wrap64 (N.of_nat n) + 1) = wrap64 (N.of_nat (S n)).
Proof.
  unfold wrap64. rewrite N.Div0.add_mod_idemp_l. f_equal. lia.
Qed.

Lemma issued_log_app trace1 trace2 sys :
  issued_log (trace1 ++ trace2) sys =
  issued_log trace1 sys ++ issued_log trace2 (run_events trace1 sys).
Proof.
  revert sys. induction trace1 as [|ev trace1 IH]; intros sys; simpl; [done|].
  by rewrite IH, app_assoc.
Qed.

Lemma run_events_app trace1 trace2 sys :
  run_events (trace1 ++ trace2) sys = run_events trace2 (run_events trace1 sys).
Proof.
  revert sys. induction trace1 as [|ev trace1 IH]; intros sys; simpl; auto.
Qed.

(** Replica [i] changes by [f], and creates the entries [new] if the call
    is an add, which then is its add number [adds_at i past']. *)
Lemma sys_inv_alter f i past past' sys log new :
  (∀ r, replica_id (f r) = replica_id r) →
  (∀ k, (adds_at k past ≤ adds_at k past')%nat) →
  (∀ k, k ≠ i → adds_at k past' = adds_at k past) →
  (∀ r, sys !! i = Some r →
        local_counter (f r) = wrap64 (N.of_nat (adds_at i past'))) →
  (∀ r p, sys !! i = Some r → p ∈ internal_set (f r) → p ∈ log ++ new) →
  (∀ p, p ∈ new → ∃ r, sys !! i = Some r
      ∧ replica_id r = tag_replica_id p.2
      ∧ tag_counter p.2 = wrap64 (N.of_nat (adds_at i past'))
      ∧ (adds_at i past < adds_at i past')%nat
      ∧ N.of_nat (adds_at i past') ≤ UINT64_MOD) →
  NoDup (new.*2) →
  sys_inv past sys log → sys_inv past' (alter f i sys) (log ++ new).
Proof.
  intros Hid Hmono Hother Hcnt Hstore Hnew Hnd [Hids Hlog Hc Hown Hst].
  split.
  - by rewrite fmap_replica_id_alter.
  - unfold tags_unique. rewrite fmap_app. apply NoDup_app.
    split; [done|]. split; [|done].
    intros t [[e1 t1] [-> H1]]%list_elem_of_fmap
             [[e2 t2] [Heq H2]]%list_elem_of_fmap.
    simpl in Heq. subst t2.
    destruct (Hown _ H1) as (j & r0 & n & Hj & Hid0 & Hn & Htag).
    destruct (Hnew _ H2) as (r & Hi & Hidr & Htag' & Hlt & Hle).
    simpl in *.
    assert (j = i) as ->.
    { apply (lookup_same_replica_id sys j i r0 r); [done..|congruence]. }
    apply (wrap64_ne_in_range n (adds_at i past')); [lia | done | congruence].
  - intros k r' [[-> (r & Hi & ->)] | [Hne Hk]]%lookup_alter_inv.
    + by apply Hcnt.
    + rewrite Hother by done. by apply Hc.
  - intros p [Hp | Hp]%elem_of_app.
    + destruct (Hown _ Hp) as (j & r0 & n & Hj & Hid0 & Hn & Htag).
      specialize (Hmono j).
      destruct (decide (i = j)) as [->|Hne].
      * exists j, (f r0), n. rewrite list_lookup_alter_eq, Hj. simpl.
        split_and!; [done | by rewrite Hid | lia | lia | done].
      * exists j, r0, n. rewrite list_lookup_alter_ne by done.
        split_and!; [done | done | lia | lia | done].
    + destruct (Hnew _ Hp) as (r & Hi & Hidr & Htag & Hlt & _).
      exists i, (f r), (adds_at i past'). rewrite list_lookup_alter_eq, Hi. simpl.
      split_and!; [done | by rewrite Hid | lia | lia | done].
  - intros j r' p [[-> (r & Hi & ->)] | [Hne Hj]]%lookup_alter_inv Hp.
    + eauto.
    + apply elem_of_app. left. eauto.
Qed.

Lemma sys_inv_snoc ev past sys log :
  (∀ i, N.of_nat (adds_at i (past ++ [ev])) ≤ UINT64_MOD) →
  sys_inv past sys log →
  sys_inv (past ++ [ev]) (step ev sys) (log ++ issued ev sys).
Proof.
  intros Hbound Hinv.
  assert (∀ k, (adds_at k past ≤ adds_at k (past ++ [ev]))%nat) as Hmono.
  { intros k. rewrite adds_at_app. lia. }
  destruct ev as [i e | i e | i j]; simpl.
  - assert (adds_at i (past ++ [EvAdd i e]) = S (adds_at i past)) as Hi.
    { rewrite adds_at_app. simpl. rewrite decide_True by done. lia. }
    apply (sys_inv_alter _ _ past); try done.
    + intros k Hne. rewrite adds_at_app. simpl.
      rewrite decide_False by done. lia.
    + intros r Hr. simpl. rewrite (inv_counter _ _ _ Hinv i r Hr), Hi.
      apply wrap64_succ.
    + intros r p Hr. rewrite Hr. simpl.
      intros [->%elem_of_singleton | Hp]%elem_of_union.
      * apply elem_of_app. right. apply list_elem_of_singleton. done.
      * apply elem_of_app. left. exact (inv_store _ _ _ Hinv i r p Hr Hp).
    + intros p. destruct (sys !! i) as [r|] eqn:Hr; [|by intros ?%elem_of_nil].
      intros ->%list_elem_of_singleton. exists r. simpl.
      rewrite (inv_counter _ _ _ Hinv i r Hr), Hi.
      split_and!; [done | done | apply wrap64_succ | lia |].
      rewrite <- Hi. apply Hbound.
    + destruct (sys !! i); simpl; [apply NoDup_singleton | apply NoDup_nil_2].
  - assert (∀ k, adds_at k (past ++ [EvRemove i e]) = adds_at k past) as Hsame.
    { intros k. rewrite adds_at_app. simpl. lia. }
    apply (sys_inv_alter _ _ past); try done.
    + intros r Hr. rewrite Hsame. simpl. by apply (inv_counter _ _ _ Hinv).
    + intros r p Hr [Hp _]%elem_of_internal_set_remove.
      rewrite app_nil_r. exact (inv_store _ _ _ Hinv i r p Hr Hp).
    + by intros p ?%elem_of_nil.
    + apply NoDup_nil_2.
  - assert (∀ k, adds_at k (past ++ [EvMerge i j]) = adds_at k past) as Hsame.
    { intros k. rewrite adds_at_app. simpl. lia. }
    destruct (sys !! j) as [other|] eqn:Hj.
    + apply (sys_inv_alter _ _ past); try done.
      * intros r Hr. rewrite Hsame. simpl. by apply (inv_counter _ _ _ Hinv).
      * intros r p Hr. rewrite app_nil_r. simpl.
        intros [Hp | Hp]%elem_of_union;
          [exact (inv_store _ _ _ Hinv i r p Hr Hp)
          |exact (inv_store _ _ _ Hinv j other p Hj Hp)].
      * by intros p ?%elem_of_nil.
      * apply NoDup_nil_2.
    + rewrite app_nil_r. destruct Hinv as [Hids Hlog Hc Hown Hst].
      split; try done.
      * intros k r Hk. rewrite Hsame. by apply Hc.
      * intros p Hp. destruct (Hown p Hp) as (k & r & n & Hk & Hid & Hn & Htag).
        exists k, r, n. rewrite Hsame. done.
Qed.

Lemma sys_inv_init ids : NoDup ids → sys_inv [] (init_system ids) [].
Proof.
  intros Hnd. unfold init_system. split.
  - rewrite <- list_fmap_compose.
    replace (replica_id ∘ ORSet_new) with (@id string) by done.
    by rewrite list_fmap_id.
  - apply NoDup_nil_2.
  - by intros i r [id [-> _]]%list_lookup_fmap_Some.
  - by intros p ?%elem_of_nil.
  - intros i r p [id [-> _]]%list_lookup_fmap_Some. simpl. set_solver.
Qed.

Lemma sys_inv_run ids trace :
  NoDup ids →
  (∀ i, N.of_nat (adds_at i trace) ≤ UINT64_MOD) →
  sys_inv trace (run_events trace (init_system ids))
          (issued_log trace (init_system ids)).
Proof.
  intros Hnd. induction trace as [|ev trace IH] using rev_ind; intros Hbound.
  - by apply sys_inv_init.
  - rewrite run_events_app, issued_log_app. simpl. rewrite app_nil_r.
    apply sys_inv_snoc; [done|]. apply IH.
    intros i. specialize (Hbound i). rewrite adds_at_app in Hbound. lia.
Qed.

Lemma sys_inv_store_tags_unique past sys log i r :
  sys_inv past sys log → sys !! i = Some r → store_tags_unique r.
Proof.
  intros [_ Hlog _ _ Hst] Hi e1 e2 t H1 H2.
  apply (Hst i r _ Hi) in H1, H2. clear Hst Hi.
  unfold tags_unique in Hlog.
  induction log as [|[e0 t0] log IH]; [by apply elem_of_nil in H1|].
  simpl in Hlog. apply NoDup_cons in Hlog as [Hnotin Hlog].
  apply elem_of_cons in H1 as [H1 | H1];
    apply elem_of_cons in H2 as [H2 | H2]; [congruence | | | auto].
  - injection H1 as -> ->.
    exfalso. apply Hnotin. apply list_elem_of_fmap. by exists (e2, t0).
  - injection H2 as -> ->.
    exfalso. apply Hnotin. apply list_elem_of_fmap. by exists (e1, t0).
Qed.
End tag_uniqueness.

(** ** The order on tags agrees with equality *)

Lemma String_compare_refl (s : string) : String.compare s s = Eq.
Proof.
  pose proof (String.compare_antisym s s) as H.
  destruct (String.compare s s); simpl in H; congruence.
Qed.

(** Two tags are the same key of a [std::set] exactly when they are equal,
    which is also what [operator==] says. *)
Lemma Tag_ltb_equiv a b :
  Tag_ltb a b = false ∧ Tag_ltb b a = false ↔ a = b.
Proof.
  unfold Tag_ltb. destruct a as [ia ca], b as [ib cb]; simpl. split.
  - intros [H1 H2]. rewrite String.compare_antisym in H2.
    destruct (String.compare ia ib) eqn:Hc; simpl in *; try done.
    apply String.compare_eq_iff in Hc. subst ib.
    apply N.ltb_ge in H1, H2. f_equal. lia.
  - intros [= -> ->].
    rewrite String_compare_refl.
    by rewrite N.ltb_irrefl.
Qed.

Lemma Tag_eqb_eq a b : Tag_eqb a b = true ↔ a = b.
Proof.
  unfold Tag_eqb. rewrite andb_true_iff, !bool_decide_eq_true.
  destruct a, b; simpl. naive_solver.
Qed.

(** ** Properties of the operations *)

(** C1.  In the walkthrough, after the first exchange both replicas
    contain "apple" and have size 1; after A's remove, B's second add and
    the second exchange, both replicas contain "apple" again. *)
Theorem walkthrough_add_wins :
  (contains "apple" Walkthrough.A2 = true
   ∧ contains "apple" Walkthrough.B2 = true
   ∧ ORSet_size Walkthrough.A2 = 1%nat
   ∧ ORSet_size Walkthrough.B2 = 1%nat)
  ∧ contains "apple" Walkthrough.A3 = false
  ∧ (contains "apple" Walkthrough.A4 = true
     ∧ contains "apple" Walkthrough.B4 = true).
Proof. vm_compute. repeat split. Qed.

(** C2.  Cache consistency: every replica reached from a fresh one by
    calls of the class, where each snapshot passed to merge is itself
    consistent, has a cache equal to the set of elements that have an
    entry in the store; and a merge of a consistent snapshot, which only
    unites the two caches, keeps it so. *)
Theorem cache_consistency (id : string) (ops : list op) :
  Forall snapshot_ok ops →
  let s := run_ops ops (ORSet_new id) in
  I1 s
  ∧ (∀ e, e ∈ element_cache s ↔ ∃ t, (e, t) ∈ internal_set s)
  ∧ (∀ other, I1 other → I1 (merge other s)).
Proof.
  intros Hok. cbv zeta.
  assert (I1 (run_ops ops (ORSet_new id))) as H.
  { generalize (I1_new id). generalize (ORSet_new id).
    induction Hok as [|o ops Ho Hok IH]; intros s Hs; simpl; [done|].
    apply IH. by apply I1_apply_op. }
  split_and!; [done | by apply I1_spec | intros other Ho; by apply I1_merge].
Qed.

Lemma cache_consistency_witness :
  let ops := [Add "apple"; Merge Walkthrough.B1; Remove "apple"; Add "pear"] in
  Forall snapshot_ok ops ∧ I1 (run_ops ops (ORSet_new "A")).
Proof.
  assert (Forall snapshot_ok
            [Add "apple"; Merge Walkthrough.B1; Remove "apple"; Add "pear"])
    as Hok.
  { apply Forall_cons_2; [exact I|].
    apply Forall_cons_2; [apply I1_add, I1_new|].
    apply Forall_cons_2; [exact I|]. apply Forall_cons_2; [exact I|].
    apply Forall_nil_2. }
  split; [exact Hok|].
  exact (proj1 (cache_consistency "A" _ Hok)).
Defined.

(** C3.  Merging the same state twice gives the same replica, hence the
    same elements and the same entry store, as merging it once. *)
Theorem merge_idempotent (A B : ORSet) :
  merge B (merge B A) = merge B A
  ∧ elements_of (merge B (merge B A)) = elements_of (merge B A)
  ∧ internal_set (merge B (merge B A)) = internal_set (merge B A).
Proof.
  assert (merge B (merge B A) = merge B A) as H.
  { unfold merge; simpl. f_equal; set_solver. }
  by rewrite H.
Qed.

(** C4.  Merge is commutative on what can be observed: A after A.merge(B)
    and B after B.merge(A) have the same elements, namely the union of
    the elements of A and of B, over the union of the two stores. *)
Theorem merge_commutative (A B : ORSet) :
  elements_of (merge B A) = elements_of (merge A B)
  ∧ elements_of (merge B A) = elements_of A ∪ elements_of B
  ∧ internal_set (merge B A) = internal_set (merge A B)
  ∧ internal_set (merge B A) = internal_set A ∪ internal_set B.
Proof.
  rewrite !elements_of_cache. simpl. split_and!; set_solver.
Qed.

(** C6.  After remove(x) the store holds no entry for x, contains(x) is
    false and x is not among the elements.  This holds in every state,
    so in particular in every state that satisfies I1. *)
Theorem remove_postcondition (s : ORSet) (x : string) :
  (∀ t, (x, t) ∉ internal_set (remove x s))
  ∧ contains x (remove x s) = false
  ∧ x ∉ elements_of (remove x s).
Proof.
  split_and!.
  - intros t. apply remove_no_entry.
  - apply contains_false. rewrite element_cache_remove. set_solver.
  - rewrite elements_of_cache, element_cache_remove. set_solver.
Qed.

(** C7.  On a consistent replica with no entry for x, remove(x) changes
    nothing: store, cache, size and counter are as before. *)
Theorem remove_absent_noop (s : ORSet) (x : string) :
  I1 s → (∀ t, (x, t) ∉ internal_set s) →
  remove x s = s
  ∧ ORSet_size (remove x s) = ORSet_size s
  ∧ get_counter (remove x s) = get_counter s.
Proof.
  intros HI Habs.
  assert (remove x s = s) as H.
  { assert (internal_set (remove x s) = internal_set s) as Hst.
    { apply set_eq. intros [e t]. rewrite elem_of_internal_set_remove. simpl.
      split; [by intros [? _]|]. intros Hin. split; [done|].
      intros ->. by apply (Habs t). }
    assert (element_cache (remove x s) = element_cache s) as Hc.
    { rewrite element_cache_remove. apply set_eq. intros e.
      rewrite elem_of_difference, elem_of_singleton.
      split; [by intros [? _]|]. intros Hin. split; [done|]. intros ->.
      destruct (proj1 (proj1 (I1_spec s) HI x) Hin) as [t Ht].
      by apply (Habs t). }
    destruct s as [i c st ca].
    change (remove x (mkORSet i c st ca))
      with (mkORSet i c (internal_set (remove x (mkORSet i c st ca)))
                    (element_cache (remove x (mkORSet i c st ca)))).
    by rewrite Hst, Hc. }
  by rewrite H.
Qed.

Lemma remove_absent_noop_witness :
  remove "pear" Walkthrough.A2 = Walkthrough.A2
  ∧ ORSet_size (remove "pear" Walkthrough.A2) = ORSet_size Walkthrough.A2
  ∧ get_counter (remove "pear" Walkthrough.A2) = get_counter Walkthrough.A2.
Proof.
  apply remove_absent_noop.
  - apply I1_merge; apply I1_add, I1_new.
  - intros t. unfold Walkthrough.A2, Walkthrough.A1, Walkthrough.B1. simpl.
    rewrite !elem_of_union, !elem_of_singleton, elem_of_empty.
    intros [[[=]|[]]|[[=]|[]]].
Defined.

(** C9.  The empty string is an element like any other: after an add of
    the empty string the replica contains it and lists it among its
    elements, after a remove of it the replica does not contain it, and
    the same equations hold for every element.  The operations are
    functions on every state and every string, so none of them can fail
    or reject an argument. *)
Theorem empty_string_element (s : ORSet) :
  (contains EmptyString (add EmptyString s) = true
   ∧ EmptyString ∈ elements_of (add EmptyString s)
   ∧ (EmptyString, next_tag s) ∈ internal_set (add EmptyString s)
   ∧ contains EmptyString (remove EmptyString s) = false)
  ∧ ∀ e, contains e (add e s) = true
         ∧ e ∈ elements_of (add e s)
         ∧ (e, next_tag s) ∈ internal_set (add e s)
         ∧ contains e (remove e s) = false.
Proof.
  assert (∀ e, contains e (add e s) = true
               ∧ e ∈ elements_of (add e s)
               ∧ (e, next_tag s) ∈ internal_set (add e s)
               ∧ contains e (remove e s) = false) as H.
  { intros e. split_and!.
    - apply contains_true. simpl. set_solver.
    - rewrite elements_of_cache. simpl. set_solver.
    - simpl. set_solver.
    - apply contains_false. rewrite element_cache_remove. set_solver. }
  split; [apply H | exact H].
Qed.

(** C10.  remove(x) touches only x: for y different from x the entries
    of y, the answer of contains(y), the replica id and the counter are
    as before. *)
Theorem remove_frame (s : ORSet) (x y : string) :
  x ≠ y →
  (∀ t, (y, t) ∈ internal_set (remove x s) ↔ (y, t) ∈ internal_set s)
  ∧ contains y (remove x s) = contains y s
  ∧ replica_id (remove x s) = replica_id s
  ∧ local_counter (remove x s) = local_counter s.
Proof.
  intros Hne. split_and!; try done.
  - intros t. rewrite elem_of_internal_set_remove. simpl. naive_solver.
  - apply eq_true_iff_eq. rewrite !contains_true, element_cache_remove.
    set_solver.
Qed.

Lemma remove_frame_witness :
  "apple" ≠ "pear"
  ∧ contains "pear" (remove "apple" (add "pear" Walkthrough.A2))
    = contains "pear" (add "pear" Walkthrough.A2).
Proof.
  assert ("apple" ≠ "pear") as Hne by discriminate.
  split; [exact Hne|].
  exact (proj1 (proj2 (remove_frame (add "pear" Walkthrough.A2) _ _ Hne))).
Defined.

(** ** The counter wraps *)





(** ** Tags across a system of replicas *)



(** X30.  For replicas constructed with pairwise distinct ids, and along
    any interleaving of add, remove and merge calls among them in which
    no replica makes more than 2^64 add calls, no two add calls produce
    the same tag and no store holds two entries that share a tag. *)
Theorem tags_unique_within_counter_range (ids : list string)
    (trace : list event) :
  NoDup ids →
  (∀ i, N.of_nat (adds_at i trace) ≤ UINT64_MOD) →
  tags_unique (issued_log trace (init_system ids))
  ∧ ∀ i r, run_events trace (init_system ids) !! i = Some r → store_tags_unique r.
Proof.
  intros Hids Hbound.
  pose proof (sys_inv_run ids trace Hids Hbound) as Hinv.
  split.
  - exact (inv_log _ _ _ Hinv).
  - intros i r Hi. exact (sys_inv_store_tags_unique _ _ _ i r Hinv Hi).
Qed.

Lemma tags_unique_within_counter_range_witness :
  let trace := [EvAdd 0 "apple"; EvAdd 1 "apple"; EvMerge 0 1; EvMerge 1 0;
                EvRemove 0 "apple"; EvAdd 1 "apple"; EvMerge 1 0; EvMerge 0 1] in
  NoDup ["A"; "B"]
  ∧ (∀ i, N.of_nat (adds_at i trace) ≤ UINT64_MOD)
  ∧ tags_unique (issued_log trace (init_system ["A"; "B"])).
Proof.
  cbv zeta.
  assert (NoDup ["A"; "B"]) as Hids.
  { apply NoDup_cons_2; [|apply NoDup_singleton].
    intros H%list_elem_of_singleton. discriminate H. }
  assert (∀ i, N.of_nat (adds_at i
            [EvAdd 0 "apple"; EvAdd 1 "apple"; EvMerge 0 1; EvMerge 1 0;
             EvRemove 0 "apple"; EvAdd 1 "apple"; EvMerge 1 0; EvMerge 0 1])
          ≤ UINT64_MOD) as Hbound.
  { intros [|[|i]]; vm_compute; discriminate. }
  split; [exact Hids|]. split; [exact Hbound|].
  exact (proj1 (tags_unique_within_counter_range _ _ Hids Hbound)).
Defined.

(** ** The containers' orders are strict total orders *)

Lemma Ascii_compare_refl (c : Ascii.ascii) : Ascii.compare c c = Eq.
Proof. unfold Ascii.compare. apply N.compare_refl. Qed.

Lemma Ascii_compare_lt_trans (a b c : Ascii.ascii) :
  Ascii.compare a b = Lt → Ascii.compare b c = Lt → Ascii.compare a c = Lt.
Proof. unfold Ascii.compare. rewrite !N.compare_lt_iff. lia. Qed.

Lemma String_compare_lt_trans (a b c : string) :
  String.compare a b = Lt → String.compare b c = Lt → String.compare a c = Lt.
Proof.
  revert b c. induction a as [|x a IH]; intros [|y b] [|z c]; simpl; try done.
  destruct (Ascii.compare x y) eqn:Hxy; try done;
    destruct (Ascii.compare y z) eqn:Hyz; try done.
  - apply Ascii.compare_eq_iff in Hxy, Hyz. subst.
    rewrite Ascii_compare_refl. apply IH.
  - apply Ascii.compare_eq_iff in Hxy. subst. by rewrite Hyz.
  - apply Ascii.compare_eq_iff in Hyz. subst. by rewrite Hxy.
  - by rewrite (Ascii_compare_lt_trans x y z).
Qed.

Lemma String_compare_gt_lt (a b : string) :
  String.compare a b = Gt ↔ String.compare b a = Lt.
Proof.
  rewrite (String.compare_antisym a b).
  destruct (String.compare b a); simpl; split; congruence.
Qed.

Lemma String_ltb_lt (a b : string) :
  String.ltb a b = true ↔ String.compare a b = Lt.
Proof. unfold String.ltb. destruct (String.compare a b); split; congruence. Qed.

Lemma Tag_ltb_irrefl (a : Tag) : Tag_ltb a a = false.
Proof. unfold Tag_ltb. by rewrite String_compare_refl, N.ltb_irrefl. Qed.

Lemma Tag_ltb_trans (a b c : Tag) :
  Tag_ltb a b = true → Tag_ltb b c = true → Tag_ltb a c = true.
Proof.
  unfold Tag_ltb. destruct a as [ia ca], b as [ib cb], c as [ic cc]; simpl.
  destruct (String.compare ia ib) eqn:Hab; try done;
    destruct (String.compare ib ic) eqn:Hbc; try done.
  - apply String.compare_eq_iff in Hab, Hbc. subst.
    rewrite String_compare_refl, !N.ltb_lt. lia.
  - apply String.compare_eq_iff in Hab. subst. by rewrite Hbc.
  - apply String.compare_eq_iff in Hbc. subst. by rewrite Hab.
  - by rewrite (String_compare_lt_trans ia ib ic).
Qed.

(** X1.  [Tag::operator<] is a strict total order: no tag is below
    itself, the order is transitive, and of two different tags exactly one
    is below the other. *)
Theorem Tag_ltb_strict_total_order :
  (∀ a, Tag_ltb a a = false)
  ∧ (∀ a b c, Tag_ltb a b = true → Tag_ltb b c = true → Tag_ltb a c = true)
  ∧ (∀ a b, Tag_ltb a b = true → Tag_ltb b a = false)
  ∧ (∀ a b, a ≠ b → Tag_ltb a b = true ∨ Tag_ltb b a = true).
Proof.
  split_and!.
  - apply Tag_ltb_irrefl.
  - apply Tag_ltb_trans.
  - intros a b Hab. destruct (Tag_ltb b a) eqn:Hba; [|done].
    by rewrite <- (Tag_ltb_irrefl a), <- (Tag_ltb_trans a b a Hab Hba).
  - intros a b Hne.
    destruct (Tag_ltb a b) eqn:Hab; [by left|].
    destruct (Tag_ltb b a) eqn:Hba; [by right|].
    destruct Hne. by apply Tag_ltb_equiv.
Qed.

(** X2.  [Tag::operator==] answers true exactly when neither tag is below
    the other for [Tag::operator<], that is, exactly when an ordered
    container treats the two tags as the same key. *)
Theorem Tag_eqb_agrees_with_order (a b : Tag) :
  Tag_eqb a b = true ↔ Tag_ltb a b = false ∧ Tag_ltb b a = false.
Proof. by rewrite Tag_eqb_eq, Tag_ltb_equiv. Qed.

(** X3.  For the order of [internal_set] two entries are the same key,
    neither below the other, exactly when they are equal; the order is
    irreflexive and transitive.  So the store holds each (element, tag)
    pair at most once and tells apart entries that differ in the element,
    the replica id or the counter. *)
Theorem entry_ltb_order :
  (∀ a b, entry_ltb a b = false ∧ entry_ltb b a = false ↔ a = b)
  ∧ (∀ a, entry_ltb a a = false)
  ∧ (∀ a b c, entry_ltb a b = true → entry_ltb b c = true → entry_ltb a c = true).
Proof.
  assert (∀ a, entry_ltb a a = false) as Hirr.
  { intros [e t]. unfold entry_ltb; simpl.
    unfold String.ltb. by rewrite String_compare_refl, Tag_ltb_irrefl. }
  split_and!; [|done|].
  - intros [e1 t1] [e2 t2]. split; [|by intros [= -> ->]].
    unfold entry_ltb; simpl. unfold String.ltb.
    rewrite (String.compare_antisym e2 e1).
    destruct (String.compare e1 e2) eqn:He; simpl; try by intros [? ?].
    apply String.compare_eq_iff in He. subst e2.
    intros Ht. f_equal. by apply Tag_ltb_equiv.
  - intros [e1 t1] [e2 t2] [e3 t3]. unfold entry_ltb; simpl.
    unfold String.ltb.
    rewrite (String.compare_antisym e2 e1), (String.compare_antisym e3 e2),
      (String.compare_antisym e3 e1).
    destruct (String.compare e1 e2) eqn:H12; simpl; try done;
      destruct (String.compare e2 e3) eqn:H23; simpl; try done.
    + apply String.compare_eq_iff in H12, H23. subst.
      rewrite String_compare_refl. simpl. apply Tag_ltb_trans.
    + apply String.compare_eq_iff in H12. subst. by rewrite H23.
    + apply String.compare_eq_iff in H23. subst. by rewrite H12.
    + by rewrite (String_compare_lt_trans e1 e2 e3).
Qed.

(** ** How the methods change the sizes *)

Lemma ORSet_eq (s1 s2 : ORSet) :
  replica_id s1 = replica_id s2 → local_counter s1 = local_counter s2 →
  internal_set s1 = internal_set s2 → element_cache s1 = element_cache s2 →
  s1 = s2.
Proof. destruct s1, s2; simpl. by intros -> -> -> ->. Qed.

Lemma size_insert_gset `{Countable K} (x : K) (X : gset K) :
  size ({[ x ]} ∪ X) = if decide (x ∈ X) then size X else S (size X).
Proof.
  case_decide as Hx.
  - f_equal. apply leibniz_equiv. set_solver.
  - rewrite size_union by set_solver. by rewrite size_singleton.
Qed.

Lemma size_delete_gset `{Countable K} (x : K) (X : gset K) :
  size (X ∖ {[ x ]}) = if decide (x ∈ X) then pred (size X) else size X.
Proof.
  case_decide as Hx.
  - rewrite size_difference by set_solver. rewrite size_singleton. lia.
  - f_equal. apply leibniz_equiv. set_solver.
Qed.

(** X4.  add(e) raises size() by one exactly when e was not contained,
    and raises internal_size() by one exactly when the pair of e and the
    new tag was not yet in the store. *)
Theorem add_sizes (s : ORSet) (e : string) :
  ORSet_size (add e s)
    = (if contains e s then ORSet_size s else S (ORSet_size s))
  ∧ internal_size (add e s)
    = (if decide ((e, next_tag s) ∈ internal_set s)
       then internal_size s else S (internal_size s)).
Proof.
  unfold ORSet_size, internal_size. simpl. rewrite !size_insert_gset. split; [|done].
  unfold contains, cache_count. by case_decide.
Qed.

Lemma wrap64_succ_ne (n : N) : wrap64 (wrap64 n + 1) ≠ wrap64 n.
Proof.
  unfold wrap64.
  assert (n mod UINT64_MOD < UINT64_MOD) as Hlt.
  { apply N.mod_upper_bound. unfold UINT64_MOD. lia. }
  destruct (decide (n mod UINT64_MOD + 1 < UINT64_MOD)) as [Hs|Hs].
  - rewrite (N.mod_small _ _ Hs). lia.
  - assert (n mod UINT64_MOD + 1 = UINT64_MOD) as -> by lia.
    rewrite N.Div0.mod_same. unfold UINT64_MOD in *. lia.
Qed.

(** X5.  Two add calls in a row on one replica never share a tag, also
    when the counter wraps between them; so after add(e1); add(e2) the
    store holds an entry for each call, under different tags. *)
Theorem consecutive_adds_distinct_tags (s : ORSet) (e1 e2 : string) :
  next_tag (add e1 s) ≠ next_tag s
  ∧ (e1, next_tag s) ∈ internal_set (add e2 (add e1 s))
  ∧ (e2, next_tag (add e1 s)) ∈ internal_set (add e2 (add e1 s)).
Proof.
  split_and!.
  - unfold next_tag. simpl. intros [= H]. by apply wrap64_succ_ne in H.
  - simpl. set_solver.
  - simpl. set_solver.
Qed.

Lemma size_set_map_inj `{Countable A, Countable B} (f : A → B) (X : gset A) :
  Inj (=) (=) f → size (set_map f X : gset B) = size X.
Proof.
  intros Hf. unfold set_map. rewrite size_list_to_set.
  - by rewrite length_fmap.
  - apply NoDup_fmap_2; [done | apply NoDup_elements].
Qed.

(** X6.  remove(x) lowers size() by one exactly when x was contained, and
    lowers internal_size() by the number of tags it found for x. *)
Theorem remove_sizes (s : ORSet) (x : string) :
  ORSet_size (remove x s)
    = (if contains x s then pred (ORSet_size s) else ORSet_size s)
  ∧ (internal_size (remove x s) + size (tags_to_remove x (internal_set s))
     = internal_size s)%nat.
Proof.
  split.
  - unfold ORSet_size. rewrite element_cache_remove, size_delete_gset.
    unfold contains, cache_count. by case_decide.
  - unfold internal_size.
    assert (internal_set s
            = internal_set (remove x s)
              ∪ set_map (λ t, (x, t)) (tags_to_remove x (internal_set s))) as Hsplit.
    { apply set_eq. intros [e t].
      rewrite elem_of_union, elem_of_internal_set_remove, elem_of_map. simpl.
      split.
      - intros Hin. destruct (decide (e = x)) as [->|Hne]; [right|by left].
        exists t. split; [done|]. by apply elem_of_tags_to_remove.
      - intros [[Hin _] | [t' [[= -> ->] Ht]]]; [done|].
        by apply elem_of_tags_to_remove. }
    rewrite (f_equal size Hsplit), size_union.
    + rewrite size_set_map_inj; [done|]. by intros t1 t2 [= ->].
    + intros [e t] [Hin Hne]%elem_of_internal_set_remove
                   [t' [[= -> ->] _]]%elem_of_map. by apply Hne.
Qed.

(** ** How the methods compose *)

(** X7.  A second remove(x) changes nothing. *)
Theorem remove_idempotent (s : ORSet) (x : string) :
  remove x (remove x s) = remove x s.
Proof.
  apply ORSet_eq; try done.
  - apply set_eq. intros p. rewrite !elem_of_internal_set_remove. naive_solver.
  - rewrite !element_cache_remove. set_solver.
Qed.

(** X8.  Removes of two elements can be done in either order. *)
Theorem remove_commute (s : ORSet) (x y : string) :
  remove x (remove y s) = remove y (remove x s).
Proof.
  apply ORSet_eq; try done.
  - apply set_eq. intros p. rewrite !elem_of_internal_set_remove. naive_solver.
  - rewrite !element_cache_remove. set_solver.
Qed.

(** X9.  add(x) followed by remove(x) leaves the store and the cache that
    remove(x) alone leaves, but the counter stays advanced: the tag that
    was spent is not handed out again. *)
Theorem remove_after_add (s : ORSet) (x : string) :
  internal_set (remove x (add x s)) = internal_set (remove x s)
  ∧ element_cache (remove x (add x s)) = element_cache (remove x s)
  ∧ local_counter (remove x (add x s)) = wrap64 (local_counter s + 1)
  ∧ next_tag (remove x (add x s)) ≠ next_tag s.
Proof.
  split_and!.
  - apply set_eq. intros [e t]. rewrite !elem_of_internal_set_remove. simpl.
    rewrite elem_of_union, elem_of_singleton. naive_solver.
  - rewrite !element_cache_remove. simpl. set_solver.
  - done.
  - unfold next_tag. simpl. intros [= H]. by apply wrap64_succ_ne in H.
Qed.

(** X10.  Merge is associative: merging B and then C into A gives the
    replica that merging into A the merge of C into B gives. *)
Theorem merge_assoc (A B C : ORSet) :
  merge C (merge B A) = merge (merge C B) A.
Proof. apply ORSet_eq; simpl; try done; set_solver. Qed.

(** X11.  Merging a fresh replica, or the replica itself, changes nothing;
    and after a merge an element is contained exactly when one of the two
    replicas contained it. *)
Theorem merge_neutral (s B : ORSet) (id x : string) :
  merge (ORSet_new id) s = s
  ∧ merge s s = s
  ∧ contains x (merge B s) = contains x s || contains x B.
Proof.
  split_and!.
  - apply ORSet_eq; simpl; try done; set_solver.
  - apply ORSet_eq; simpl; try done; set_solver.
  - apply eq_true_iff_eq.
    rewrite orb_true_iff, !contains_true. simpl. set_solver.
Qed.

(** X12.  A merge can be moved across an add or a remove: adding after
    the merge is merging after the add, and removing x after the merge is
    merging the two replicas after removing x from each. *)
Theorem merge_commutes_with_updates (A B : ORSet) (e : string) :
  add e (merge B A) = merge B (add e A)
  ∧ remove e (merge B A) = merge (remove e B) (remove e A).
Proof.
  split.
  - apply ORSet_eq; simpl; try done; set_solver.
  - apply ORSet_eq; try done.
    + apply set_eq. intros p.
      change (internal_set (merge (remove e B) (remove e A)))
        with (internal_set (remove e A) ∪ internal_set (remove e B)).
      rewrite elem_of_union, !elem_of_internal_set_remove. simpl.
      rewrite elem_of_union. naive_solver.
    + change (element_cache (merge (remove e B) (remove e A)))
        with (element_cache (remove e A) ∪ element_cache (remove e B)).
      rewrite !element_cache_remove. simpl. set_solver.
Qed.

(** ** Growth of the store *)

(** X13.  Along a history without remove calls the store and the cache
    only grow: every entry and every element present before is present
    after. *)
Theorem store_grows_without_remove (ops : list op) (s : ORSet) :
  Forall (λ o, never_erases o = true) ops →
  internal_set s ⊆ internal_set (run_ops ops s)
  ∧ element_cache s ⊆ element_cache (run_ops ops s).
Proof.
  intros Hops. revert s.
  induction Hops as [|o ops Ho Hops IH]; intros s; simpl; [done|].
  destruct (IH (apply_op o s)) as [IH1 IH2].
  split; (etrans; [|eassumption]); destruct o; simpl; try done; set_solver.
Qed.

Lemma store_grows_without_remove_witness :
  let ops := [Add "pear"; Merge Walkthrough.B1; Size; Add "plum"] in
  Forall (λ o, never_erases o = true) ops
  ∧ internal_set Walkthrough.A1 ⊆ internal_set (run_ops ops Walkthrough.A1).
Proof.
  cbv zeta.
  assert (Forall (λ o, never_erases o = true)
            [Add "pear"; Merge Walkthrough.B1; Size; Add "plum"]) as Hops.
  { repeat (apply Forall_cons_2; [reflexivity|]). apply Forall_nil_2. }
  split; [exact Hops|].
  exact (proj1 (store_grows_without_remove _ Walkthrough.A1 Hops)).
Defined.

(** X14.  Along a history without add and merge calls the store and the
    cache only shrink, and no element enters the replica. *)
Theorem store_shrinks_without_add_merge (ops : list op) (s : ORSet) :
  Forall (λ o, never_inserts o = true) ops →
  internal_set (run_ops ops s) ⊆ internal_set s
  ∧ element_cache (run_ops ops s) ⊆ element_cache s.
Proof.
  intros Hops. revert s.
  induction Hops as [|o ops Ho Hops IH]; intros s; simpl; [done|].
  destruct (IH (apply_op o s)) as [IH1 IH2].
  split; (etrans; [eassumption|]); destruct o; simpl in *; try done.
  - intros p [Hp _]%elem_of_internal_set_remove. done.
  - change (element_cache (remove element s) ⊆ element_cache s).
    rewrite element_cache_remove. set_solver.
Qed.

Lemma store_shrinks_without_add_merge_witness :
  let ops := [Remove "apple"; Contains "apple"; Remove "pear"; Elements] in
  Forall (λ o, never_inserts o = true) ops
  ∧ element_cache (run_ops ops Walkthrough.A2) ⊆ element_cache Walkthrough.A2.
Proof.
  cbv zeta.
  assert (Forall (λ o, never_inserts o = true)
            [Remove "apple"; Contains "apple"; Remove "pear"; Elements]) as Hops.
  { repeat (apply Forall_cons_2; [reflexivity|]). apply Forall_nil_2. }
  split; [exact Hops|].
  exact (proj2 (store_shrinks_without_add_merge _ Walkthrough.A2 Hops)).
Defined.

(** ** Synchronisation *)

(** X15.  A two-way exchange, A.merge(B) and then B.merge(A), makes the
    two replicas agree: same store, same elements, same size, each the
    union of what the two held; ids and counters are untouched. *)
Theorem two_way_sync_converges (A B : ORSet) :
  let A' := merge B A in
  let B' := merge A' B in
  internal_set A' = internal_set B'
  ∧ internal_set A' = internal_set A ∪ internal_set B
  ∧ elements_of A' = elements_of B'
  ∧ ORSet_size A' = ORSet_size B'
  ∧ (replica_id A' = replica_id A ∧ replica_id B' = replica_id B)
  ∧ (local_counter A' = local_counter A ∧ local_counter B' = local_counter B).
Proof.
  cbv zeta.
  assert (element_cache (merge B A) = element_cache (merge (merge B A) B)) as Hc.
  { simpl. set_solver. }
  split_and!; try done.
  - simpl. set_solver.
  - by rewrite !elements_of_cache.
  - unfold ORSet_size. by rewrite Hc.
Qed.

(** X16.  The six merges that end the three-replica test make any three
    replicas agree: each ends with the union of the three stores and of
    the three caches, so all report the same elements and size. *)
Theorem full_sync_converges (A B C : ORSet) :
  let store := internal_set A ∪ internal_set B ∪ internal_set C in
  let cache := element_cache A ∪ element_cache B ∪ element_cache C in
  let '(A', B', C') := full_sync (A, B, C) in
  (internal_set A' = store ∧ internal_set B' = store ∧ internal_set C' = store)
  ∧ (element_cache A' = cache ∧ element_cache B' = cache ∧ element_cache C' = cache)
  ∧ (ORSet_size A' = ORSet_size B' ∧ ORSet_size B' = ORSet_size C').
Proof.
  simpl. unfold ORSet_size. simpl.
  split_and!; first [set_solver | apply (f_equal size); set_solver].
Qed.

(** X17.  A remove is undone by a merge with a replica that still holds
    the element: after A.remove(x); A.merge(B) the entries of x in A are
    exactly those of B, and A contains x exactly when B does. *)
Theorem merge_after_remove (A B : ORSet) (x : string) :
  (∀ t, (x, t) ∈ internal_set (merge B (remove x A)) ↔ (x, t) ∈ internal_set B)
  ∧ contains x (merge B (remove x A)) = contains x B.
Proof.
  split.
  - intros t.
    change (internal_set (merge B (remove x A)))
      with (internal_set (remove x A) ∪ internal_set B).
    rewrite elem_of_union, elem_of_internal_set_remove. simpl. naive_solver.
  - apply eq_true_iff_eq. rewrite !contains_true.
    change (element_cache (merge B (remove x A)))
      with (element_cache (remove x A) ∪ element_cache B).
    rewrite element_cache_remove. set_solver.
Qed.

(** ** The queries *)

(** X18.  The three queries read the same cache: elements() lists exactly
    the strings for which contains() is true, size() is the number of
    elements listed, and a fresh replica has none. *)
Theorem queries_agree (s : ORSet) (x id : string) :
  (x ∈ elements_of s ↔ contains x s = true)
  ∧ ORSet_size s = size (elements_of s)
  ∧ elements_of (ORSet_new id) = ∅
  ∧ ORSet_size (ORSet_new id) = 0%nat
  ∧ internal_size (ORSet_new id) = 0%nat
  ∧ contains x (ORSet_new id) = false.
Proof.
  rewrite !elements_of_cache, contains_true. split_and!; done.
Qed.

Lemma size_list_to_set_le `{Countable K} (l : list K) :
  (size (list_to_set l : gset K) ≤ length l)%nat.
Proof.
  induction l as [|x l IH].
  - assert (size (list_to_set [] : gset K) = 0%nat) as -> by apply size_empty.
    done.
  - rewrite list_to_set_cons, size_insert_gset. simpl. case_decide; lia.
Qed.

(** X19.  In a consistent replica size() is at most internal_size(), and
    one of them is 0 exactly when the other is. *)
Theorem size_le_internal_size (s : ORSet) :
  I1 s →
  (ORSet_size s ≤ internal_size s)%nat
  ∧ (ORSet_size s = 0%nat ↔ internal_size s = 0%nat).
Proof.
  intros HI. unfold ORSet_size, internal_size.
  split.
  - rewrite HI. unfold recomputed_cache, set_map.
    etrans; [apply size_list_to_set_le|]. by rewrite length_fmap.
  - rewrite !size_empty_iff. pose proof (proj1 (I1_spec s) HI) as Hspec.
    split; intros Hempty.
    + apply set_equiv. intros [e t]. split; [|set_solver].
      intros Hin. assert (e ∈ element_cache s) as He by (apply Hspec; eauto).
      set_solver.
    + apply set_equiv. intros e. split; [|set_solver].
      intros [t Ht]%Hspec. set_solver.
Qed.

Lemma size_le_internal_size_witness :
  (ORSet_size Walkthrough.A2 ≤ internal_size Walkthrough.A2)%nat.
Proof.
  apply size_le_internal_size.
  apply I1_merge; apply I1_add, I1_new.
Defined.

(** ** Adding and removing many elements *)

Lemma add_all_run_ops (es : list string) (s : ORSet) :
  add_all es s = run_ops (Add <$> es) s.
Proof.
  unfold add_all. revert s. induction es as [|e es IH]; intros s; simpl; [done|].
  apply IH.
Qed.

Lemma remove_all_run_ops (es : list string) (s : ORSet) :
  remove_all es s = run_ops (Remove <$> es) s.
Proof.
  unfold remove_all. revert s. induction es as [|e es IH]; intros s; simpl; [done|].
  apply IH.
Qed.

Lemma add_all_snoc (es : list string) (e : string) (s : ORSet) :
  add_all (es ++ [e]) s = add e (add_all es s).
Proof. unfold add_all. by rewrite foldl_snoc. Qed.

Lemma remove_all_snoc (es : list string) (e : string) (s : ORSet) :
  remove_all (es ++ [e]) s = remove e (remove_all es s).
Proof. unfold remove_all. by rewrite foldl_snoc. Qed.

Lemma count_adds_fmap_Add (es : list string) :
  count_adds (Add <$> es) = length es.
Proof. induction es as [|e es IH]; [done|]. simpl. f_equal. exact IH. Qed.

Lemma I1_add_all (es : list string) (s : ORSet) : I1 s → I1 (add_all es s).
Proof.
  intros Hs. induction es as [|e es IH] using rev_ind; [done|].
  rewrite add_all_snoc. by apply I1_add.
Qed.

Lemma element_cache_add_all (es : list string) (s : ORSet) :
  element_cache (add_all es s) = list_to_set es ∪ element_cache s.
Proof.
  induction es as [|e es IH] using rev_ind.
  - unfold add_all. simpl. set_solver.
  - rewrite add_all_snoc. simpl. rewrite IH, list_to_set_app_L. simpl. set_solver.
Qed.

Lemma replica_id_add_all (es : list string) (s : ORSet) :
  replica_id (add_all es s) = replica_id s.
Proof. by rewrite add_all_run_ops, replica_id_run_ops. Qed.

Lemma tag_owner_add_all (es : list string) (id : string) (p : string * Tag) :
  p ∈ internal_set (add_all es (ORSet_new id)) → tag_replica_id p.2 = id.
Proof.
  induction es as [|e es IH] using rev_ind.
  - unfold add_all. simpl. set_solver.
  - rewrite add_all_snoc. simpl.
    intros [->%elem_of_singleton | Hp]%elem_of_union; [|by apply IH].
    simpl. apply replica_id_add_all.
Qed.

Lemma sizes_add_all_NoDup (id : string) (es : list string) :
  NoDup es →
  ORSet_size (add_all es (ORSet_new id)) = length es
  ∧ internal_size (add_all es (ORSet_new id)) = length es.
Proof.
  intros Hnd. split.
  - unfold ORSet_size. rewrite element_cache_add_all.
    assert (list_to_set es ∪ element_cache (ORSet_new id) = list_to_set es) as ->.
    { simpl. set_solver. }
    by apply size_list_to_set.
  - induction es as [|e es IH] using rev_ind; [done|].
    apply NoDup_app in Hnd as (Hnd & Hfresh & _).
    rewrite add_all_snoc, length_app. simpl. unfold internal_size in *. simpl.
    rewrite size_insert_gset, decide_False, (IH Hnd); [lia|].
    intros Hin.
    assert (e ∈ element_cache (add_all es (ORSet_new id))) as He.
    { apply (proj1 (I1_spec _) (I1_add_all es _ (I1_new id))). eauto. }
    rewrite element_cache_add_all in He. simpl in He.
    apply (Hfresh e); [set_solver | by apply list_elem_of_singleton].
Qed.

(** X20.  Adding pairwise different elements to a fresh replica gives a
    replica that holds exactly these elements, one entry for each:
    size() and internal_size() are both the number of add calls. *)
Theorem add_all_distinct (id : string) (es : list string) :
  NoDup es →
  let s := add_all es (ORSet_new id) in
  elements_of s = list_to_set es
  ∧ ORSet_size s = length es
  ∧ internal_size s = length es.
Proof.
  intros Hnd. cbv zeta. split; [|by apply sizes_add_all_NoDup].
  rewrite elements_of_cache, element_cache_add_all. simpl. set_solver.
Qed.

Lemma add_all_distinct_witness :
  NoDup ["apple"; "banana"; "cherry"]
  ∧ internal_size (add_all ["apple"; "banana"; "cherry"] (ORSet_new "test")) = 3%nat.
Proof.
  assert (NoDup ["apple"; "banana"; "cherry"]) as Hnd.
  { apply NoDup_cons_2.
    - intros [H|[H|H]%elem_of_cons]%elem_of_cons;
        [discriminate H | discriminate H | by apply elem_of_nil in H].
    - apply NoDup_cons_2; [|apply NoDup_singleton].
      intros H%list_elem_of_singleton. discriminate H. }
  split; [exact Hnd|].
  exact (proj2 (proj2 (add_all_distinct "test" _ Hnd))).
Defined.

Lemma add_all_counter_inv (es : list string) (id : string) :
  N.of_nat (length es) < UINT64_MOD →
  local_counter (add_all es (ORSet_new id)) = N.of_nat (length es)
  ∧ (∀ p, p ∈ internal_set (add_all es (ORSet_new id)) →
          tag_counter p.2 ≤ N.of_nat (length es))
  ∧ internal_size (add_all es (ORSet_new id)) = length es.
Proof.
  induction es as [|e es IH] using rev_ind; intros Hlen.
  - split_and!; [done | | done]. unfold add_all. simpl. set_solver.
  - rewrite length_app in Hlen |- *. simpl in Hlen |- *.
    destruct IH as (Hc & Hle & Hsz); [lia|].
    rewrite add_all_snoc.
    assert (wrap64 (local_counter (add_all es (ORSet_new id)) + 1)
            = N.of_nat (length es + 1)) as Hnext.
    { rewrite Hc, wrap64_small by lia. lia. }
    split_and!.
    + exact Hnext.
    + intros p. simpl.
      intros [->%elem_of_singleton | Hp]%elem_of_union.
      * simpl. rewrite Hnext. lia.
      * specialize (Hle p Hp). lia.
    + unfold internal_size in *. simpl.
      rewrite size_insert_gset, decide_False, Hsz; [lia|].
      intros Hin. specialize (Hle _ Hin). simpl in Hle.
      rewrite Hnext in Hle. lia.
Qed.

(** X21.  As long as the counter does not wrap, every add call creates an
    entry of its own, also for an element added before: after fewer than
    2^64 add calls on a fresh replica, internal_size() and get_counter()
    are both the number of calls. *)
Theorem add_all_one_entry_per_call (id : string) (es : list string) :
  N.of_nat (length es) < UINT64_MOD →
  internal_size (add_all es (ORSet_new id)) = length es
  ∧ get_counter (add_all es (ORSet_new id)) = N.of_nat (length es)
  ∧ (ORSet_size (add_all es (ORSet_new id)) ≤ length es)%nat.
Proof.
  intros Hlen. destruct (add_all_counter_inv es id Hlen) as (Hc & _ & Hsz).
  split_and!; [done | done |].
  unfold ORSet_size. rewrite element_cache_add_all.
  assert (list_to_set es ∪ element_cache (ORSet_new id) = list_to_set es) as ->.
  { simpl. set_solver. }
  apply size_list_to_set_le.
Qed.

Lemma add_all_one_entry_per_call_witness :
  N.of_nat (length ["apple"; "apple"; "pear"]) < UINT64_MOD
  ∧ internal_size (add_all ["apple"; "apple"; "pear"] (ORSet_new "A")) = 3%nat.
Proof.
  assert (N.of_nat (length ["apple"; "apple"; "pear"]) < UINT64_MOD) as Hlen
    by (vm_compute; reflexivity).
  split; [exact Hlen|].
  exact (proj1 (add_all_one_entry_per_call "A" _ Hlen)).
Defined.

Lemma elem_of_internal_set_remove_all (es : list string) (s : ORSet)
    (p : string * Tag) :
  p ∈ internal_set (remove_all es s) ↔ p ∈ internal_set s ∧ p.1 ∉ es.
Proof.
  induction es as [|e es IH] using rev_ind.
  - unfold remove_all. simpl. rewrite elem_of_nil. naive_solver.
  - rewrite remove_all_snoc, elem_of_internal_set_remove, IH, elem_of_app,
      list_elem_of_singleton. naive_solver.
Qed.

Lemma element_cache_remove_all (es : list string) (s : ORSet) :
  element_cache (remove_all es s) = element_cache s ∖ list_to_set es.
Proof.
  induction es as [|e es IH] using rev_ind.
  - unfold remove_all. simpl. set_solver.
  - rewrite remove_all_snoc, element_cache_remove, IH, list_to_set_app_L.
    simpl. set_solver.
Qed.

Lemma local_counter_remove_all (es : list string) (s : ORSet) :
  local_counter (remove_all es s) = local_counter s.
Proof.
  induction es as [|e es IH] using rev_ind; [done|].
  by rewrite remove_all_snoc.
Qed.

Lemma remove_all_cover (es : list string) (s : ORSet) :
  I1 s → (∀ x, x ∈ element_cache s → x ∈ es) →
  internal_set (remove_all es s) = ∅ ∧ element_cache (remove_all es s) = ∅.
Proof.
  intros HI Hcover. pose proof (proj1 (I1_spec s) HI) as Hspec. split.
  - apply set_eq. intros [e t]. split; [|set_solver].
    intros [Hin Hno]%elem_of_internal_set_remove_all. destruct Hno. simpl.
    apply Hcover, Hspec. eauto.
  - rewrite element_cache_remove_all.
    apply set_eq. intros x. rewrite elem_of_difference, elem_of_list_to_set.
    split; [|set_solver]. intros [Hx Hno]. destruct Hno. by apply Hcover.
Qed.

(** X22.  Removing a list of elements keeps exactly the entries of the
    other elements, takes exactly the listed elements out of the cache,
    and leaves id and counter alone. *)
Theorem remove_all_spec (es : list string) (s : ORSet) :
  (∀ p, p ∈ internal_set (remove_all es s) ↔ p ∈ internal_set s ∧ p.1 ∉ es)
  ∧ element_cache (remove_all es s) = element_cache s ∖ list_to_set es
  ∧ replica_id (remove_all es s) = replica_id s
  ∧ local_counter (remove_all es s) = local_counter s.
Proof.
  split_and!.
  - apply elem_of_internal_set_remove_all.
  - apply element_cache_remove_all.
  - by rewrite remove_all_run_ops, replica_id_run_ops.
  - apply local_counter_remove_all.
Qed.

(** X23.  Removing every element of a consistent replica empties it:
    no entry and no element is left, while the counter keeps its value. *)
Theorem remove_all_empties (es : list string) (s : ORSet) :
  I1 s → (∀ x, x ∈ elements_of s → x ∈ es) →
  internal_size (remove_all es s) = 0%nat
  ∧ ORSet_size (remove_all es s) = 0%nat
  ∧ elements_of (remove_all es s) = ∅
  ∧ get_counter (remove_all es s) = get_counter s.
Proof.
  intros HI Hcover. setoid_rewrite elements_of_cache in Hcover.
  destruct (remove_all_cover es s HI Hcover) as [Hst Hc].
  unfold internal_size, ORSet_size, get_counter.
  rewrite elements_of_cache, Hst, Hc, !size_empty.
  split_and!; try done. apply local_counter_remove_all.
Qed.

Lemma remove_all_empties_witness :
  ORSet_size (remove_all ["pear"; "apple"] Walkthrough.A2) = 0%nat.
Proof.
  apply (remove_all_empties ["pear"; "apple"] Walkthrough.A2).
  - apply I1_merge; apply I1_add, I1_new.
  - intros x. rewrite elements_of_cache.
    unfold Walkthrough.A2, Walkthrough.A1, Walkthrough.B1. simpl.
    rewrite !elem_of_union, !elem_of_singleton, elem_of_empty.
    intros [[->|[]]|[->|[]]]; apply elem_of_cons; right;
      by apply list_elem_of_singleton.
Defined.

(** ** The benchmark loops *)

Lemma element_cache_merge (B A : ORSet) :
  element_cache (merge B A) = element_cache A ∪ element_cache B.
Proof. done. Qed.

Lemma internal_set_merge (B A : ORSet) :
  internal_set (merge B A) = internal_set A ∪ internal_set B.
Proof. done. Qed.

Lemma element_cache_new (id : string) : element_cache (ORSet_new id) = ∅.
Proof. done. Qed.

Lemma to_string_inj (i j : nat) : to_string i = to_string j → i = j.
Proof.
  unfold to_string. intros H.
  apply (f_equal NilEmpty.uint_of_string) in H.
  rewrite !NilEmpty.usu in H. injection H as H.
  apply (f_equal Nat.of_uint) in H.
  by rewrite !DecimalNat.Unsigned.of_to in H.
Qed.

Lemma element_name_inj (i j : nat) : element_name i = element_name j → i = j.
Proof.
  unfold element_name. simpl. intros [= H]. by apply to_string_inj.
Qed.

Lemma foldl_add_fmap (f : nat → string) (l : list nat) (s : ORSet) :
  foldl (λ acc i, add (f i) acc) s l = add_all (f <$> l) s.
Proof.
  unfold add_all. revert s. induction l as [|i l IH]; intros s; simpl; [done|].
  apply IH.
Qed.

Lemma foldl_remove_fmap (f : nat → string) (l : list nat) (s : ORSet) :
  foldl (λ acc i, remove (f i) acc) s l = remove_all (f <$> l) s.
Proof.
  unfold remove_all. revert s. induction l as [|i l IH]; intros s; simpl; [done|].
  apply IH.
Qed.

Lemma NoDup_element_names (offset n : nat) :
  NoDup ((λ i, element_name (i + offset)) <$> seq 0 n).
Proof.
  apply NoDup_fmap_2_strong; [|apply NoDup_seq].
  intros i j _ _ H%element_name_inj. lia.
Qed.

Lemma elem_of_element_names (offset n : nat) (x : string) :
  x ∈ (λ i, element_name (i + offset)) <$> seq 0 n
  ↔ ∃ k, x = element_name k ∧ (offset ≤ k < offset + n)%nat.
Proof.
  rewrite list_elem_of_fmap. split.
  - intros [i [-> Hi%elem_of_seq]]. exists (i + offset)%nat. split; [done|lia].
  - intros [k [-> Hk]]. exists (k - offset)%nat. split.
    + f_equal. lia.
    + apply elem_of_seq. lia.
Qed.

(** X24.  The population loop of the benchmarks, run on a fresh replica,
    gives a replica with n elements and n entries and counter n; the
    memory estimate computed from it is 80 n. *)
Theorem benchmark_memory_counts (n : nat) :
  N.of_nat n ≤ INT_MAX →
  let s := populate 0 n (ORSet_new "bench") in
  internal_size s = n
  ∧ ORSet_size s = n
  ∧ get_counter s = N.of_nat n
  ∧ estimated_memory s = 80 * N.of_nat n.
Proof.
  intros Hn. cbv zeta. unfold populate. rewrite foldl_add_fmap.
  unfold INT_MAX in Hn.
  pose proof (sizes_add_all_NoDup "bench" _ (NoDup_element_names 0 n))
    as (Hsz & Hisz).
  rewrite length_fmap, length_seq in Hsz, Hisz.
  assert (N.of_nat (length ((λ i, element_name (i + 0)) <$> seq 0 n)) < UINT64_MOD)
    as Hlen.
  { rewrite length_fmap, length_seq. unfold UINT64_MOD. lia. }
  pose proof (add_all_counter_inv _ "bench" Hlen) as (Hc & _ & _).
  rewrite length_fmap, length_seq in Hc.
  unfold estimated_memory, get_counter. rewrite Hsz, Hisz, Hc.
  split_and!; try done.
  rewrite !wrap64_small; unfold UINT64_MOD; try lia.
  rewrite !wrap64_small; unfold UINT64_MOD; lia.
Qed.

Lemma benchmark_memory_counts_witness :
  N.of_nat 1000 ≤ INT_MAX
  ∧ estimated_memory (populate 0 1000 (ORSet_new "bench")) = 80000.
Proof.
  assert (N.of_nat 1000 ≤ INT_MAX) as Hn by (vm_compute; discriminate).
  split; [exact Hn|].
  exact (proj2 (proj2 (proj2 (benchmark_memory_counts 1000 Hn)))).
Defined.

(** X25.  In the merge benchmark replica A holds the elements 0..n-1 and
    replica B the elements n/2..n/2+n-1; after A.merge(B) replica A
    holds n + n/2 elements and 2n entries. *)
Theorem benchmark_merge_sizes (n : nat) :
  N.of_nat (n + n / 2) ≤ INT_MAX →
  let A := populate 0 n (ORSet_new "A") in
  let B := populate (n / 2) n (ORSet_new "B") in
  ORSet_size (merge B A) = (n + n / 2)%nat
  ∧ internal_size (merge B A) = (2 * n)%nat.
Proof.
  intros _. cbv zeta. unfold populate. rewrite !foldl_add_fmap.
  split.
  - unfold ORSet_size.
    rewrite element_cache_merge, !element_cache_add_all, !element_cache_new,
      !(right_id_L ∅ (∪)).
    assert (list_to_set ((λ i, element_name (i + 0)) <$> seq 0 n)
              ∪ list_to_set ((λ i, element_name (i + n / 2)) <$> seq 0 n)
            = (list_to_set ((λ i, element_name (i + 0)) <$> seq 0 (n + n / 2))
               : gset string)) as ->.
    { apply set_eq. intros x.
      rewrite !elem_of_union, !elem_of_list_to_set, !elem_of_element_names.
      assert (n / 2 ≤ n)%nat as Hle by (apply Nat.Div0.div_le_upper_bound; lia).
      split.
      - intros [(k & -> & Hk) | (k & -> & Hk)];
          exists k; (split; [done|lia]).
      - intros (k & -> & Hk). destruct (decide (k < n)%nat).
        + left. exists k. split; [done|lia].
        + right. exists k. split; [done|lia]. }
    rewrite size_list_to_set by apply NoDup_element_names.
    by rewrite length_fmap, length_seq.
  - unfold internal_size. rewrite internal_set_merge, size_union.
    + pose proof (sizes_add_all_NoDup "A" _ (NoDup_element_names 0 n))
        as (_ & HA).
      pose proof (sizes_add_all_NoDup "B" _ (NoDup_element_names (n / 2) n))
        as (_ & HB).
      unfold internal_size in HA, HB. rewrite HA, HB.
      rewrite !length_fmap, !length_seq. lia.
    + intros p HA%tag_owner_add_all HB%tag_owner_add_all. congruence.
Qed.

Lemma benchmark_merge_sizes_witness :
  N.of_nat (100 + 100 / 2) ≤ INT_MAX
  ∧ ORSet_size (merge (populate (100 / 2) 100 (ORSet_new "B"))
                      (populate 0 100 (ORSet_new "A"))) = 150%nat.
Proof.
  assert (N.of_nat (100 + 100 / 2) ≤ INT_MAX) as Hn by (vm_compute; discriminate).
  split; [exact Hn|].
  exact (proj1 (benchmark_merge_sizes 100 Hn)).
Defined.

(** X26.  The remove benchmark, which removes again every element that
    its population loop added, ends with an empty replica whose counter
    is still n. *)
Theorem benchmark_remove_empties (n : nat) :
  N.of_nat n ≤ INT_MAX →
  let s := depopulate n (populate 0 n (ORSet_new "bench")) in
  ORSet_size s = 0%nat
  ∧ internal_size s = 0%nat
  ∧ get_counter s = N.of_nat n.
Proof.
  intros Hn. cbv zeta. unfold populate, depopulate, INT_MAX in *.
  rewrite foldl_add_fmap.
  rewrite (foldl_remove_fmap element_name).
  set (names := (λ i, element_name (i + 0)) <$> seq 0 n).
  assert (element_name <$> seq 0 n = names) as ->.
  { unfold names. apply list_fmap_ext. intros i k _. f_equal. lia. }
  assert (N.of_nat (length names) < UINT64_MOD) as Hlen.
  { unfold names. rewrite length_fmap, length_seq. unfold UINT64_MOD. lia. }
  pose proof (add_all_counter_inv names "bench" Hlen) as (Hc & _ & _).
  unfold names in Hc at 2. rewrite length_fmap, length_seq in Hc.
  destruct (remove_all_cover names (add_all names (ORSet_new "bench")))
    as (Hst & Hcache).
  - apply I1_add_all, I1_new.
  - intros x. rewrite element_cache_add_all. simpl.
    rewrite elem_of_union, elem_of_list_to_set, elem_of_empty. tauto.
  - unfold ORSet_size, internal_size, get_counter.
    rewrite Hst, Hcache, !size_empty, local_counter_remove_all.
    split_and!; done.
Qed.

Lemma benchmark_remove_empties_witness :
  N.of_nat 100 ≤ INT_MAX
  ∧ ORSet_size (depopulate 100 (populate 0 100 (ORSet_new "bench"))) = 0%nat.
Proof.
  assert (N.of_nat 100 ≤ INT_MAX) as Hn by (vm_compute; discriminate).
  split; [exact Hn|].
  exact (proj1 (benchmark_remove_empties 100 Hn)).
Defined.

(** ** The test suite *)

(** X27.  Run on this code, the suite counts 16 passed and 1 failed
    assertion out of 17: the assertion of [test_complex_scenario] that
    item2 is absent from A after the full sync fails, because the merges
    hand A back the entries for item2 that B still holds. *)
Theorem test_suite_outcome :
  run_tests = {| passed := 16; failed := 1 |}
  ∧ summary_total run_tests = 17%Z
  ∧ test_complex_scenario TestRunner_new = {| passed := 2; failed := 1 |}
  ∧ contains "item2" complex_before_sync.1.1 = false
  ∧ contains "item2" complex_before_sync.1.2 = true
  ∧ contains "item2" complex_after_sync.1.1 = true.
Proof. vm_compute. repeat split. Qed.

(** ** A system of replicas that merge each other *)

Lemma lookup_step_inv (ev : event) (sys : list ORSet) (i : nat) (r' : ORSet) :
  step ev sys !! i = Some r' →
  ∃ r, sys !! i = Some r
       ∧ ((r' = r ∧ adds_at i [ev] = 0%nat)
          ∨ (∃ e, ev = EvAdd i e ∧ r' = add e r)
          ∨ (∃ e, ev = EvRemove i e ∧ r' = remove e r)
          ∨ (∃ j other, ev = EvMerge i j ∧ sys !! j = Some other
                        ∧ r' = merge other r)).
Proof.
  destruct ev as [k e | k e | k j]; simpl.
  - intros [[-> (r & Hr & ->)] | [Hne Hr]]%lookup_alter_inv; [eauto 10|].
    exists r'. rewrite decide_False by done. eauto.
  - intros [[-> (r & Hr & ->)] | [_ Hr]]%lookup_alter_inv; eauto 10.
  - destruct (sys !! j) as [other|] eqn:Hj; [|eauto].
    intros [[-> (r & Hr & ->)] | [_ Hr]]%lookup_alter_inv; eauto 15.
Qed.

(** X28.  In a system whose replicas start fresh and only merge the
    states of one another, every replica is consistent at every moment,
    with nothing asked of the caller: the cache is the set of elements
    with an entry, so contains(x) is true exactly when the store has an
    entry for x. *)
Theorem system_cache_consistency (ids : list string) (trace : list event)
    (i : nat) (r : ORSet) :
  run_events trace (init_system ids) !! i = Some r →
  I1 r ∧ ∀ x, contains x r = true ↔ ∃ t, (x, t) ∈ internal_set r.
Proof.
  assert (∀ sys, Forall I1 sys → Forall I1 (run_events trace sys)) as Hall.
  { induction trace as [|ev trace IH]; intros sys Hsys; simpl; [done|].
    apply IH. destruct ev as [k e | k e | k j]; simpl.
    - apply Forall_alter; [done|]. intros. by apply I1_add.
    - apply Forall_alter; [done|]. intros. by apply I1_remove.
    - destruct (sys !! j) as [other|] eqn:Hj; [|done].
      apply Forall_alter; [done|]. intros. apply I1_merge; [|done].
      by apply (Forall_lookup_1 _ _ _ _ Hsys Hj). }
  intros Hr.
  assert (I1 r) as HI.
  { apply (Forall_lookup_1 _ _ _ _ (Hall (init_system ids)
             (proj2 (Forall_fmap _ _ _) (Forall_true _ _ (λ id, I1_new id)))) Hr). }
  split; [done|]. intros x. rewrite contains_true. by apply I1_spec.
Qed.

Lemma system_cache_consistency_witness :
  let trace := [EvAdd 0 "apple"; EvAdd 1 "apple"; EvMerge 0 1; EvRemove 0 "apple"] in
  ∃ r, run_events trace (init_system ["A"; "B"]) !! 0%nat = Some r ∧ I1 r.
Proof.
  cbv zeta.
  eexists. split; [reflexivity|].
  exact (proj1 (system_cache_consistency ["A"; "B"]
                  [EvAdd 0 "apple"; EvAdd 1 "apple"; EvMerge 0 1; EvRemove 0 "apple"]
                  0 _ eq_refl)).
Defined.

(** X29.  Whatever the replicas of a system do, each keeps the id it was
    constructed with, and its counter is the number of its own add calls
    modulo 2^64: the calls made on other replicas, and the merges,
    leave it alone. *)
Theorem system_ids_and_counters (ids : list string) (trace : list event)
    (i : nat) (r : ORSet) :
  run_events trace (init_system ids) !! i = Some r →
  ids !! i = Some (replica_id r)
  ∧ local_counter r = wrap64 (N.of_nat (adds_at i trace)).
Proof.
  assert (∀ sys r', run_events trace sys !! i = Some r' →
            ∃ r0, sys !! i = Some r0 ∧ replica_id r' = replica_id r0
                  ∧ wrap64 (local_counter r')
                    = wrap64 (local_counter r0 + N.of_nat (adds_at i trace))
                  ∧ (local_counter r0 < UINT64_MOD → local_counter r' < UINT64_MOD))
    as Hgen.
  { induction trace as [|ev trace IH]; intros sys r' Hr'; simpl in *.
    - exists r'. rewrite N.add_0_r. eauto.
    - destruct (IH _ _ Hr') as (r1 & Hr1 & Hid & Hc & Hlt).
      destruct (lookup_step_inv _ _ _ _ Hr1)
        as (r0 & Hr0 & [[-> Hnone] | [(e & -> & ->) | [(e & -> & ->) | (j & o & -> & _ & ->)]]]).
      + exists r0. split_and!; try done.
        destruct ev as [k e| |]; try done.
        simpl in Hnone. by case_decide.
      + exists r0. rewrite decide_True by done. split_and!; try done.
        * rewrite Hc. simpl. unfold wrap64.
          rewrite N.Div0.add_mod_idemp_l. f_equal. lia.
        * intros _. apply Hlt. simpl. apply N.mod_upper_bound.
          unfold UINT64_MOD. lia.
      + exists r0. split_and!; done.
      + exists r0. split_and!; done. }
  intros Hr. destruct (Hgen _ _ Hr) as (r0 & Hr0 & Hid & Hc & Hlt).
  apply list_lookup_fmap_Some in Hr0 as (id & -> & Hi). simpl in *.
  split; [by rewrite Hid|].
  rewrite N.add_0_l in Hc. rewrite <- Hc. symmetry. apply wrap64_small.
  apply Hlt. unfold UINT64_MOD. lia.
Qed.

Lemma system_ids_and_counters_witness :
  let trace := [EvAdd 0 "apple"; EvAdd 1 "apple"; EvMerge 0 1; EvAdd 1 "pear"] in
  ∃ r, run_events trace (init_system ["A"; "B"]) !! 1%nat = Some r
       ∧ local_counter r = wrap64 (N.of_nat (adds_at 1 trace)).
Proof.
  cbv zeta.
  eexists. split; [reflexivity|].
  exact (proj2 (system_ids_and_counters ["A"; "B"]
                  [EvAdd 0 "apple"; EvAdd 1 "apple"; EvMerge 0 1; EvAdd 1 "pear"]
                  1 _ eq_refl)).
Defined.
